(** * The abort-controller pool of the server, and its abort-signal utilities

    Source: [utils/abortSignalUtils.ts] ([configureAbortSignalListeners],
    [createAbortController], [safeAbort]) and the class [AbortControllerPool]
    ([add], [create], [remove], [get], [abort]).

    The pool keeps its controllers in an ordinary object created by the
    literal [{}] and reads, writes and deletes it with [obj[id]],
    [obj[id] = c], [hasOwnProperty] and [delete obj[id]].  The first part of
    this file gives those four object operations their ECMAScript meaning
    (own properties, the prototype chain, strict-mode assignment), and the
    meaning of [AbortController]; the second part is the source, function by
    function, over that platform. *)

From stdpp Require Import base strings gmap list.

Local Open Scope string_scope.

(* ===================================================================== *)
(** ** Platform: values, completions, controllers                        *)
(* ===================================================================== *)

Module JS.

(** Controllers live on a heap; a reference is an index into it. *)
Abbreviation loc := nat (only parsing).

(** What a property read on the pool's record can evaluate to. *)
Inductive value :=
  | VUndefined
  | VController (l : loc)       (* a controller object *)
  | VObjectPrototype            (* %Object.prototype% itself *)
  | VFunction (name : string)   (* a built-in function object *)
  | VSignal (l : loc).          (* the AbortSignal owned by controller l *)

Inductive error :=
  | TypeError                   (* raised by the language *)
  | Raised.                     (* raised by an overriding [abort] method *)

Inductive completion (A : Type) :=
  | Normal (a : A)
  | Throw (e : error).
Arguments Normal {A} a.
Arguments Throw {A} e.

(** [ToBoolean]: [undefined] is the only falsy value among these. *)
Definition truthy (v : value) : bool :=
  match v with
  | VUndefined => false
  | _ => true
  end.

(** The [abort] method a controller object answers with: the platform's own,
    or one of a subclass that throws, after or instead of [super.abort()].
    [add] accepts any object of type [AbortController], so both occur. *)
Inductive abort_method :=
  | NativeAbort
  | ThrowingAbort (calls_super : bool).

Record controller := Controller {
  aborted : bool;               (* signal.aborted *)
  abort_events : nat;           (* 'abort' events dispatched to the signal's listeners *)
  abort_impl : abort_method
}.

(** [new AbortController()] *)
Definition new_controller : controller :=
  {| aborted := false; abort_events := 0; abort_impl := NativeAbort |}.

(** AbortController.prototype.abort: "if signal is aborted, return"; else set
    the flag and fire one 'abort' event. *)
Definition signal_abort (c : controller) : controller :=
  if aborted c then c
  else {| aborted := true; abort_events := S (abort_events c);
          abort_impl := abort_impl c |}.

(** [c.abort()] for the object at [l]. *)
Definition invoke_abort (l : loc) (h : list controller)
  : completion unit * list controller :=
  match h !! l with
  | Some c =>
      match abort_impl c with
      | NativeAbort => (Normal tt, <[l := signal_abort c]> h)
      | ThrowingAbort calls_super =>
          (Throw Raised, if calls_super then <[l := signal_abort c]> h else h)
      end
  | None => (Throw TypeError, h)
  end.

(** [v.abort()] for any value [v]: only controllers have a callable [abort];
    on %Object.prototype%, on a function and on an AbortSignal the property
    is [undefined], and calling it is a TypeError. *)
Definition call_abort (v : value) (h : list controller)
  : completion unit * list controller :=
  match v with
  | VController l => invoke_abort l h
  | _ => (Throw TypeError, h)
  end.

(* --------------------------------------------------------------------- *)
(** ** Platform: the ordinary object behind [abortControllers]           *)
(* --------------------------------------------------------------------- *)

(** The record starts as [{}]: no own properties, prototype %Object.prototype%.
    Own properties are created by assignment only, so each holds a controller.
    The prototype changes when the key [__proto__] is assigned: that name is
    an accessor of %Object.prototype% whose setter re-parents the receiver. *)
Record jsobject := JSObject {
  own : gmap string loc;
  proto : option loc            (* None: %Object.prototype%; Some l: controller l *)
}.

Definition empty_object : jsobject := {| own := ∅; proto := None |}.

(** The function-valued properties of %Object.prototype%. *)
Definition object_prototype_methods : list string :=
  [ "constructor"; "hasOwnProperty"; "isPrototypeOf"; "propertyIsEnumerable";
    "toLocaleString"; "toString"; "valueOf";
    "__defineGetter__"; "__defineSetter__";
    "__lookupGetter__"; "__lookupSetter__" ].

Definition object_prototype_get (id : string) : value :=
  if decide (id ∈ object_prototype_methods) then VFunction id else VUndefined.

(** [o[id]] ([[Get]]).  An own property wins.  Otherwise the chain is walked:
    [__proto__] is the getter of %Object.prototype% and answers with the
    receiver's prototype; through a controller, AbortController.prototype
    contributes [abort], [constructor] and the getter [signal], which is run
    on the record, not on a controller: it throws where the getter checks its
    receiver ([checks_receiver]), and reads the controller's signal through
    the chain where it does not. *)
Definition get_property (checks_receiver : bool) (o : jsobject) (id : string)
  : completion value :=
  match own o !! id with
  | Some l => Normal (VController l)
  | None =>
      if decide (id = "__proto__") then
        Normal (match proto o with
                | None => VObjectPrototype
                | Some l => VController l
                end)
      else
        match proto o with
        | None => Normal (object_prototype_get id)
        | Some l =>
            if decide (id = "signal") then
              if checks_receiver then Throw TypeError else Normal (VSignal l)
            else if decide (id = "abort") then Normal (VFunction id)
            else Normal (object_prototype_get id)
        end
  end.

(** [o[id] = c] in strict code ([[Set]]).  An own property is overwritten.
    Otherwise: [__proto__] runs the setter, which makes [c] the prototype;
    [signal], when inherited from a controller, is an accessor without setter,
    and the assignment is a TypeError; every other name, inherited as a
    writable data property or not at all, becomes a new own property. *)
Definition set_property (o : jsobject) (id : string) (l : loc)
  : completion jsobject :=
  match own o !! id with
  | Some _ => Normal {| own := <[id := l]> (own o); proto := proto o |}
  | None =>
      if decide (id = "__proto__") then
        Normal {| own := own o; proto := Some l |}
      else if decide (id = "signal") then
        match proto o with
        | Some _ => Throw TypeError
        | None => Normal {| own := <[id := l]> (own o); proto := proto o |}
        end
      else Normal {| own := <[id := l]> (own o); proto := proto o |}
  end.

(** [Object.prototype.hasOwnProperty.call(o, id)] *)
Definition has_own_property (o : jsobject) (id : string) : bool :=
  bool_decide (is_Some (own o !! id)).

(** [delete o[id]] *)
Definition delete_property (o : jsobject) (id : string) : jsobject :=
  {| own := delete id (own o); proto := proto o |}.

End JS.
Import JS.

(* ===================================================================== *)
(** ** The world the source runs in                                      *)
(* ===================================================================== *)

Record world := World {
  checks_receiver : bool;       (* platform: does the [signal] getter check its receiver *)
  defaultMaxListeners : nat;    (* EventEmitter.defaultMaxListeners *)
  processMaxListeners : nat;    (* process.getMaxListeners() *)
  heap : list controller;       (* every controller object created so far *)
  abortControllers : jsobject;  (* the pool's field *)
  warnings : list (string * error)  (* what console.warn was given: id, error *)
}.

Definition with_limits (n m : nat) (w : world) : world :=
  {| checks_receiver := checks_receiver w;
     defaultMaxListeners := n; processMaxListeners := m;
     heap := heap w; abortControllers := abortControllers w;
     warnings := warnings w |}.

Definition with_heap (h : list controller) (w : world) : world :=
  {| checks_receiver := checks_receiver w;
     defaultMaxListeners := defaultMaxListeners w;
     processMaxListeners := processMaxListeners w;
     heap := h; abortControllers := abortControllers w;
     warnings := warnings w |}.

Definition with_pool (o : jsobject) (w : world) : world :=
  {| checks_receiver := checks_receiver w;
     defaultMaxListeners := defaultMaxListeners w;
     processMaxListeners := processMaxListeners w;
     heap := heap w; abortControllers := o;
     warnings := warnings w |}.

Definition with_warning (id : string) (e : error) (w : world) : world :=
  {| checks_receiver := checks_receiver w;
     defaultMaxListeners := defaultMaxListeners w;
     processMaxListeners := processMaxListeners w;
     heap := heap w; abortControllers := abortControllers w;
     warnings := warnings w ++ [(id, e)] |}.

(** A process that has just constructed its pool: Node's listener limits are
    10 until configured, no controller exists, the record is [{}]. *)
Definition startup (checks : bool) : world :=
  {| checks_receiver := checks;
     defaultMaxListeners := 10; processMaxListeners := 10;
     heap := []; abortControllers := empty_object; warnings := [] |}.

(** Statements run in a world and either complete or throw. *)
Definition M (A : Type) : Type := world → completion A * world.

Definition ret {A} (a : A) : M A := λ w, (Normal a, w).

Definition bind {A B} (m : M A) (k : A → M B) : M B :=
  λ w, match m w with
       | (Normal a, w') => k a w'
       | (Throw e, w') => (Throw e, w')
       end.

(** [try { body } catch (error) { handler }] *)
Definition try_catch {A} (body : M A) (handler : error → M A) : M A :=
  λ w, match body w with
       | (Normal a, w') => (Normal a, w')
       | (Throw e, w') => handler e w'
       end.

Notation "'let*' x ':=' m 'in' k" := (bind m (λ x, k))
  (at level 10, x name, m at level 100, k at level 200).
Notation "'do' m 'then' k" := (bind m (λ _, k))
  (at level 10, m at level 100, k at level 200).

(* ===================================================================== *)
(** ** utils/abortSignalUtils.ts: the listener limits, new controllers    *)
(* ===================================================================== *)

Definition configureAbortSignalListeners : M unit :=
  λ w, (Normal tt, with_limits 20 20 w).

Definition createAbortController : M loc :=
  λ w, (Normal (length (heap w)), with_heap (heap w ++ [new_controller]) w).

(* ===================================================================== *)
(** ** class AbortControllerPool: add, create, remove, get                *)
(* ===================================================================== *)

Definition add (id : string) (abortController : loc) : M unit :=
  λ w, match set_property (abortControllers w) id abortController with
       | Normal o => (Normal tt, with_pool o w)
       | Throw e => (Throw e, w)
       end.

Definition create (id : string) : M loc :=
  let* abortController := createAbortController in
  do add id abortController then
  ret abortController.

Definition remove (id : string) : M unit :=
  λ w, if has_own_property (abortControllers w) id
       then (Normal tt, with_pool (delete_property (abortControllers w) id) w)
       else (Normal tt, w).

Definition get (id : string) : M value :=
  λ w, (get_property (checks_receiver w) (abortControllers w) id, w).

(** [controller.abort()] *)
Definition controller_abort (controller : value) : M unit :=
  λ w, let '(r, h) := call_abort controller (heap w) in (r, with_heap h w).

(* ===================================================================== *)
(** ** utils/abortSignalUtils.ts: safeAbort                               *)
(* ===================================================================== *)

(** [console.warn(`Failed to abort controller ${id}:`, error)] *)
Definition console_warn (id : string) (e : error) : M unit :=
  λ w, (Normal tt, with_warning id e w).

(** [safeAbort(abortControllerPool, id)].  Its only caller in the source is
    [AbortControllerPool.abort], which passes [this]: [abortControllerPool]
    is the pool of the world, and its [get] and [remove] are the two above. *)
Definition safeAbort (id : string) : M unit :=
  try_catch
    (let* controller := get id in
     if truthy controller
     then (do controller_abort controller then remove id)
     else ret tt)
    (λ error, console_warn id error).

(* ===================================================================== *)
(** ** class AbortControllerPool: abort                                   *)
(* ===================================================================== *)

Definition abort (id : string) : M unit := safeAbort id.

(* ===================================================================== *)
(** ** Callers                                                            *)
(* ===================================================================== *)

(** What the rest of the process can do to the world: configure the limits,
    make a controller of its own, signal a controller it holds, and call the
    pool. *)
Inductive call :=
  | Configure
  | New (impl : abort_method)
  | Signal (c : loc)
  | Add (id : string) (c : loc)
  | Create (id : string)
  | Remove (id : string)
  | Get (id : string)
  | Abort (id : string).

(** [c.abort()] by a holder of the handle [c]. *)
Definition signal (c : loc) : M unit := controller_abort (VController c).

Definition perform (c : call) (w : world) : world :=
  match c with
  | Configure => snd (configureAbortSignalListeners w)
  | New impl =>
      with_heap (heap w ++ [{| aborted := false; abort_events := 0;
                               abort_impl := impl |}]) w
  | Signal l => snd (signal l w)
  | Add id l => snd (add id l w)
  | Create id => snd (create id w)
  | Remove id => snd (remove id w)
  | Get id => snd (get id w)
  | Abort id => snd (abort id w)
  end.

Definition run (cs : list call) (w : world) : world :=
  foldl (λ w c, perform c w) w cs.

(** [n] calls of [c.abort()] in a row. *)
Fixpoint signals (n : nat) (c : loc) : M unit :=
  match n with
  | 0 => ret tt
  | S n => do signal c then signals n c
  end.

(** The call puts a controller under [K]. *)
Definition registers (K : string) (c : call) : Prop :=
  match c with
  | Create id | Add id _ => id = K
  | _ => False
  end.

(** Nothing is reachable under [K]: no own property, and, for [__proto__],
    the prototype is still %Object.prototype%. *)
Definition unregistered (K : string) (w : world) : Prop :=
  own (abortControllers w) !! K = None ∧
  (K = "__proto__" → proto (abortControllers w) = None).

(** The record's prototype is still %Object.prototype%. *)
Definition pristine (w : world) : Prop := proto (abortControllers w) = None.

(** The key names nothing that %Object.prototype% defines. *)
Definition plain (K : string) : Prop :=
  K ≠ "__proto__" ∧ K ∉ object_prototype_methods.

(** What a caller may pass: [add] is given a controller that exists. *)
Definition well_typed (c : call) (w : world) : Prop :=
  match c with
  | Add _ l => (l < length (heap w))%nat
  | _ => True
  end.

(** Every reference the record holds, as an own property or as its
    prototype, is to a controller that exists. *)
Definition wf (w : world) : Prop :=
  map_Forall (λ _ l, l < length (heap w))%nat (own (abortControllers w)) ∧
  from_option (λ l, l < length (heap w))%nat True (proto (abortControllers w)).


(* ===================================================================== *)
(** ** Basic facts                                                        *)
(* ===================================================================== *)

Lemma with_heap_same w : with_heap (heap w) w = w.
Proof. by destruct w. Qed.

Lemma with_pool_same w : with_pool (abortControllers w) w = w.
Proof. by destruct w. Qed.

Lemma delete_property_absent o K :
  own o !! K = None → delete_property o K = o.
Proof.
  intros H. destruct o as [m p]; unfold delete_property; simpl in *.
  by rewrite delete_id.
Qed.

(** [get] only reads. *)
Lemma get_world K w : snd (get K w) = w.
Proof. reflexivity. Qed.

(** [get] answers with a controller exactly for an own property, and for
    [__proto__] once the prototype is a controller. *)
Lemma get_controller K w l :
  fst (get K w) = Normal (VController l) ↔
  own (abortControllers w) !! K = Some l ∨
  (own (abortControllers w) !! K = None ∧ K = "__proto__" ∧
   proto (abortControllers w) = Some l).
Proof.
  unfold get, get_property; simpl.
  destruct (own (abortControllers w) !! K) as [l0|] eqn:Hown.
  - split; [intros [= ->]; by left | intros [[= ->] | (? & _)]; done].
  - destruct (decide (K = "__proto__")) as [->|Hne].
    + destruct (proto (abortControllers w)) as [l0|];
        split; try (intros [= ->]; right; done);
        intros [? | (_ & _ & ?)]; try done; congruence.
    + split; [| intros [? | (_ & ? & _)]; done].
      destruct (proto (abortControllers w)); unfold object_prototype_get;
        repeat case_decide; try destruct (checks_receiver w); done.
Qed.

(** [remove] always completes, and deletes the own property if there is one. *)
Lemma remove_spec K w :
  remove K w = (Normal tt, with_pool (delete_property (abortControllers w) K) w).
Proof.
  unfold remove, has_own_property. case_bool_decide as H; [done |].
  rewrite delete_property_absent, ?with_pool_same; [done |].
  by apply eq_None_not_Some.
Qed.

(** [abort] always completes: whatever is thrown inside is caught. *)
Lemma abort_returns K w : fst (abort K w) = Normal tt.
Proof.
  unfold abort, safeAbort, try_catch, bind, console_warn, ret.
  destruct (get K w) as [[v|e] w1]; [| done].
  destruct (truthy v); [| done].
  destruct (controller_abort v w1) as [[[]|e] w2]; [| done].
  by rewrite remove_spec.
Qed.

(** What [get] throws, if it throws, is a TypeError. *)
Lemma get_throws K w e : fst (get K w) = Throw e → e = TypeError.
Proof.
  unfold get, get_property; simpl.
  destruct (own (abortControllers w) !! K); [done |].
  case_decide; [done |].
  destruct (proto (abortControllers w)); [| done].
  repeat case_decide; try done.
  destruct (checks_receiver w); [by intros [= <-] | done].
Qed.

(** Where [get] finds nothing truthy to abort or nothing with an [abort]
    method, the pool and the controllers stay as they are; what changes at
    most is the console. *)
Lemma abort_without_controller K w :
  (∀ l, fst (get K w) ≠ Normal (VController l)) →
  snd (abort K w) = w ∨ snd (abort K w) = with_warning K TypeError w.
Proof.
  intros Hno. unfold abort, safeAbort, try_catch, bind, console_warn, ret.
  destruct (get K w) as [[v|e] w1] eqn:Hget.
  - pose proof (get_world K w) as Hw; rewrite Hget in Hw; simpl in Hw; subst w1.
    destruct v as [|l| | |]; simpl;
      try (right; unfold controller_abort; simpl; by rewrite with_heap_same).
    + by left.
    + by destruct (Hno l).
  - pose proof (get_world K w) as Hw; rewrite Hget in Hw; simpl in Hw; subst w1.
    pose proof (get_throws K w e) as He. rewrite Hget in He.
    rewrite (He eq_refl). by right.
Qed.

Lemma unregistered_no_controller K w l :
  unregistered K w → fst (get K w) ≠ Normal (VController l).
Proof.
  intros [Hown Hproto] Hget. apply get_controller in Hget as [H | (_ & -> & H)].
  - congruence.
  - rewrite Hproto in H; done.
Qed.

Lemma unregistered_startup K b : unregistered K (startup b).
Proof. split; [apply lookup_empty | done]. Qed.

(** What [abort] does when [get] finds a controller, by the controller's
    [abort] method. *)
Lemma abort_found K w l c :
  fst (get K w) = Normal (VController l) → heap w !! l = Some c →
  abort K w =
    match abort_impl c with
    | NativeAbort =>
        remove K (with_heap (<[l := signal_abort c]> (heap w)) w)
    | ThrowingAbort calls_super =>
        (Normal tt,
         with_warning K Raised
           (with_heap (if calls_super then <[l := signal_abort c]> (heap w)
                       else heap w) w))
    end.
Proof.
  intros Hget Hc.
  unfold abort, safeAbort, try_catch, bind, console_warn, ret.
  unfold get in *; simpl in Hget; rewrite Hget; simpl.
  unfold controller_abort, call_abort, invoke_abort. rewrite Hc.
  destruct (abort_impl c); simpl; [by rewrite !remove_spec | done].
Qed.

Lemma abort_dangling K w l :
  fst (get K w) = Normal (VController l) → heap w !! l = None →
  abort K w = (Normal tt, with_warning K TypeError w).
Proof.
  intros Hget Hc.
  unfold abort, safeAbort, try_catch, bind, console_warn, ret.
  unfold get in *; simpl in Hget; rewrite Hget; simpl.
  unfold controller_abort, call_abort, invoke_abort. rewrite Hc.
  by rewrite with_heap_same.
Qed.

(** [abort] leaves the record alone or deletes the own property of its key. *)
Lemma abort_pool K w :
  abortControllers (snd (abort K w)) = abortControllers w ∨
  abortControllers (snd (abort K w)) = delete_property (abortControllers w) K.
Proof.
  destruct (fst (get K w)) as [[|l| | |]|e] eqn:Hget;
    try (destruct (abort_without_controller K w) as [-> | ->];
         [intros l'; rewrite Hget; done | by left | by left]).
  destruct (heap w !! l) as [c|] eqn:Hc.
  - rewrite (abort_found K w l c Hget Hc).
    destruct (abort_impl c); [rewrite remove_spec; by right | by left].
  - rewrite (abort_dangling K w l Hget Hc). by left.
Qed.

(** The limits are written by [configureAbortSignalListeners] only. *)
Lemma abort_limits K w :
  defaultMaxListeners (snd (abort K w)) = defaultMaxListeners w ∧
  processMaxListeners (snd (abort K w)) = processMaxListeners w.
Proof.
  destruct (fst (get K w)) as [[|l| | |]|e] eqn:Hget;
    try (destruct (abort_without_controller K w) as [-> | ->];
         [intros l'; rewrite Hget; done | done | done]).
  destruct (heap w !! l) as [c|] eqn:Hc.
  - rewrite (abort_found K w l c Hget Hc).
    destruct (abort_impl c); [by rewrite remove_spec | done].
  - by rewrite (abort_dangling K w l Hget Hc).
Qed.

(** Assignment under one key leaves the own properties of the other keys, and,
    unless the key is [__proto__], the prototype. *)
Lemma set_property_own_other o id l o' K :
  set_property o id l = Normal o' → id ≠ K → own o' !! K = own o !! K.
Proof.
  unfold set_property. intros H Hne.
  destruct (own o !! id); [| repeat case_decide; try destruct (proto o)];
    simplify_eq; simpl; try done; by rewrite lookup_insert_ne.
Qed.

Lemma set_property_proto o id l o' :
  set_property o id l = Normal o' → id ≠ "__proto__" → proto o' = proto o.
Proof.
  unfold set_property. intros H Hne.
  destruct (own o !! id); [| repeat case_decide; try destruct (proto o) eqn:?];
    by simplify_eq.
Qed.

Lemma add_heap id l w : heap (snd (add id l w)) = heap w.
Proof. unfold add. by destruct (set_property _ _ _). Qed.

Lemma add_own_other id l w K :
  id ≠ K →
  own (abortControllers (snd (add id l w))) !! K = own (abortControllers w) !! K.
Proof.
  intros Hne. unfold add.
  destruct (set_property _ _ _) as [o'|e] eqn:Hset; [| done].
  by apply (set_property_own_other _ id l).
Qed.

Lemma add_proto id l w :
  id ≠ "__proto__" →
  proto (abortControllers (snd (add id l w))) = proto (abortControllers w).
Proof.
  intros Hne. unfold add.
  destruct (set_property _ _ _) as [o'|e] eqn:Hset; [| done].
  by apply (set_property_proto _ id l).
Qed.

Lemma create_add id w :
  snd (create id w) =
  snd (add id (length (heap w)) (with_heap (heap w ++ [new_controller]) w)).
Proof.
  unfold create, bind, createAbortController, ret.
  by destruct (add _ _ _) as [[[]|e] w'].
Qed.

Lemma delete_property_own o id K :
  own (delete_property o id) !! K = if decide (id = K) then None else own o !! K.
Proof. unfold delete_property; simpl. apply lookup_delete. Qed.

(** A key stays unregistered as long as no call registers it. *)
Lemma unregistered_perform K c w :
  ¬ registers K c → unregistered K w → unregistered K (perform c w).
Proof.
  intros Hc [Hown Hproto].
  destruct c as [|impl|l|id l|id|id|id|id]; simpl in Hc; try done.
  - (* Signal *)
    unfold perform, signal, controller_abort.
    by destruct (call_abort (VController l) (heap w)).
  - (* Add *)
    unfold perform. split.
    + by rewrite add_own_other.
    + intros ->. by rewrite add_proto; [apply Hproto |].
  - (* Create *)
    unfold perform. rewrite create_add. split.
    + by rewrite add_own_other.
    + intros ->. by rewrite add_proto; [apply Hproto |].
  - (* Remove *)
    unfold perform. rewrite remove_spec. split; [| done].
    cbn [snd abortControllers with_pool]. rewrite delete_property_own.
    by case_decide.
  - (* Abort *)
    unfold perform, unregistered.
    destruct (abort_pool id w) as [-> | ->]; [done |]. split; [| done].
    rewrite delete_property_own. by case_decide.
Qed.

Lemma unregistered_run K cs w :
  Forall (λ c, ¬ registers K c) cs → unregistered K w →
  unregistered K (run cs w).
Proof.
  intros Hcs. revert w.
  induction Hcs as [|c cs Hc _ IH]; intros w Hw; [done |].
  apply IH. by apply unregistered_perform.
Qed.

(* ===================================================================== *)
(** ** Cancellation                                                       *)
(* ===================================================================== *)

(** X12. [abort] is the registry's cancel.  It always completes.  It looks the
    key up; a controller found there is signalled and then [remove] is run for
    the key, after which the key has no entry of its own; where the lookup
    yields [undefined], nothing at all happens.  In a process that started
    with an empty pool, for a key that no call so far has registered, [abort]
    leaves the pool's record and every controller as they were: the world
    is the same, but for the warning written when the key names an inherited
    property and the TypeError of calling its [abort] is caught. *)
Theorem cancel_looks_up_signals_removes (w : world) (K : string) :
  fst (abort K w) = Normal tt ∧
  (∀ l c,
     fst (get K w) = Normal (VController l) →
     heap w !! l = Some c → abort_impl c = NativeAbort →
     abort K w = remove K (with_heap (<[l := signal_abort c]> (heap w)) w) ∧
     aborted <$> heap (snd (abort K w)) !! l = Some true ∧
     own (abortControllers (snd (abort K w))) !! K = None) ∧
  (fst (get K w) = Normal VUndefined → abort K w = (Normal tt, w)) ∧
  (∀ b cs,
     w = run cs (startup b) → Forall (λ c, ¬ registers K c) cs →
     abortControllers (snd (abort K w)) = abortControllers w ∧
     heap (snd (abort K w)) = heap w ∧
     (snd (abort K w) = w ∨ snd (abort K w) = with_warning K TypeError w)).
Proof.
  split; [apply abort_returns |]. split; [| split].
  - intros l c Hget Hc Himpl.
    rewrite (abort_found K w l c Hget Hc), Himpl. split; [done |].
    rewrite remove_spec. cbn [snd heap with_pool with_heap abortControllers].
    split.
    + rewrite list_lookup_insert_eq by (by eapply lookup_lt_Some).
      unfold signal_abort. by destruct (aborted c) eqn:E; simpl; rewrite ?E.
    + rewrite delete_property_own. by case_decide.
  - intros Hget.
    unfold abort, safeAbort, try_catch, bind, ret.
    unfold get in *; simpl in Hget. by rewrite Hget.
  - intros b cs -> Hcs.
    assert (unregistered K (run cs (startup b))) as Hun
      by (apply unregistered_run; [done | apply unregistered_startup]).
    destruct (abort_without_controller K (run cs (startup b))) as [Hq | Hw];
      [intros l; by apply unregistered_no_controller | |].
    + rewrite Hq. by repeat split; [left].
    + rewrite Hw. by repeat split; [right].
Qed.

Lemma cancel_looks_up_signals_removes_witness :
  let w := run [Create "flow1_sess1"] (startup true) in
  (abort "flow1_sess1" w =
     remove "flow1_sess1"
       (with_heap (<[0 := signal_abort new_controller]> (heap w)) w) ∧
   aborted <$> heap (snd (abort "flow1_sess1" w)) !! 0 = Some true ∧
   own (abortControllers (snd (abort "flow1_sess1" w))) !! "flow1_sess1" = None) ∧
  abort "flow2_sess2" w = (Normal tt, w) ∧
  (abortControllers (snd (abort "flow2_sess2" w)) = abortControllers w ∧
   heap (snd (abort "flow2_sess2" w)) = heap w ∧
   (snd (abort "flow2_sess2" w) = w ∨
    snd (abort "flow2_sess2" w) = with_warning "flow2_sess2" TypeError w)).
Proof.
  intros w.
  destruct (cancel_looks_up_signals_removes w "flow1_sess1")
    as (_ & Hfound & _ & _).
  destruct (cancel_looks_up_signals_removes w "flow2_sess2")
    as (_ & _ & Hnone & Hnever).
  split; [apply (Hfound 0 new_controller); reflexivity |].
  split; [apply Hnone; reflexivity |].
  apply (Hnever true [Create "flow1_sess1"]); [reflexivity |].
  repeat constructor. simpl. discriminate.
Defined.

(* ===================================================================== *)
(** ** Handles                                                            *)
(* ===================================================================== *)

Lemma signal_abort_aborted c : aborted (signal_abort c) = true.
Proof. unfold signal_abort. by destruct (aborted c) eqn:E; simpl. Qed.

Lemma signal_abort_impl c : abort_impl (signal_abort c) = abort_impl c.
Proof. unfold signal_abort. by destruct (aborted c). Qed.

Lemma signal_abort_fixed c : aborted c = true → signal_abort c = c.
Proof. unfold signal_abort. by intros ->. Qed.

Lemma signal_abort_idem c : signal_abort (signal_abort c) = signal_abort c.
Proof. apply signal_abort_fixed, signal_abort_aborted. Qed.

Lemma with_heap_with_heap h1 h2 w : with_heap h2 (with_heap h1 w) = with_heap h2 w.
Proof. done. Qed.

(** One call on a controller with the platform's own [abort]. *)
Lemma signal_native l c w :
  heap w !! l = Some c → abort_impl c = NativeAbort →
  signal l w = (Normal tt, with_heap (<[l := signal_abort c]> (heap w)) w).
Proof.
  intros Hc Himpl.
  unfold signal, controller_abort, call_abort, invoke_abort.
  by rewrite Hc, Himpl.
Qed.

(** Any positive number of calls in a row. *)
Lemma signals_native n l c w :
  heap w !! l = Some c → abort_impl c = NativeAbort →
  signals (S n) l w =
    (Normal tt, with_heap (<[l := signal_abort c]> (heap w)) w).
Proof.
  revert c w. induction n as [|n IH]; intros c w Hc Himpl.
  - unfold signals, bind, ret. by rewrite (signal_native l c).
  - change (signals (S (S n)) l) with (do signal l then signals (S n) l).
    unfold bind. rewrite (signal_native l c w Hc Himpl).
    rewrite (IH (signal_abort c)).
    + cbn [heap with_heap]. rewrite with_heap_with_heap.
      by rewrite list_insert_insert_eq, signal_abort_idem.
    + cbn [heap with_heap]. apply list_lookup_insert_eq.
      by eapply lookup_lt_Some.
    + by rewrite signal_abort_impl.
Qed.

(** A signalled controller is never written again: [abort] on it, by any
    path, stores back what it read. *)
Lemma invoke_abort_frozen l' h l x :
  h !! l = Some x → aborted x = true → snd (invoke_abort l' h) !! l = Some x.
Proof.
  intros Hx Hab. unfold invoke_abort.
  destruct (h !! l') as [c|] eqn:Hc; [| done].
  assert (<[l' := signal_abort c]> h !! l = Some x) as Hins.
  { destruct (decide (l' = l)) as [->|Hne].
    - rewrite list_lookup_insert_eq by (by eapply lookup_lt_Some).
      rewrite Hc in Hx. injection Hx as ->. by rewrite signal_abort_fixed.
    - by rewrite list_lookup_insert_ne. }
  destruct (abort_impl c) as [|[]]; done.
Qed.

Lemma abort_heap K w :
  heap (snd (abort K w)) = heap w ∨
  ∃ l, fst (get K w) = Normal (VController l) ∧
       heap (snd (abort K w)) = snd (invoke_abort l (heap w)).
Proof.
  destruct (fst (get K w)) as [[|l| | |]|e] eqn:Hget;
    try (destruct (abort_without_controller K w) as [-> | ->];
         [intros l'; rewrite Hget; done | by left | by left]).
  right. exists l. split; [done |].
  unfold invoke_abort. destruct (heap w !! l) as [c|] eqn:Hc.
  - rewrite (abort_found K w l c Hget Hc).
    destruct (abort_impl c); [by rewrite remove_spec | done].
  - by rewrite (abort_dangling K w l Hget Hc).
Qed.

Lemma perform_frozen c w l x :
  heap w !! l = Some x → aborted x = true → heap (perform c w) !! l = Some x.
Proof.
  intros Hx Hab.
  destruct c as [|impl|l'|id l'|id|id|id|id]; unfold perform; try done.
  - cbn [heap with_heap]. by apply lookup_app_l_Some.
  - unfold signal, controller_abort, call_abort.
    destruct (invoke_abort l' (heap w)) as [r h] eqn:E. cbn [snd heap with_heap].
    change h with (snd (r, h)). rewrite <- E. by apply invoke_abort_frozen.
  - by rewrite add_heap.
  - rewrite create_add, add_heap. cbn [heap with_heap].
    by apply lookup_app_l_Some.
  - by rewrite remove_spec.
  - destruct (abort_heap id w) as [-> | (l' & _ & ->)]; [done |].
    by apply invoke_abort_frozen.
Qed.

Lemma run_frozen cs w l x :
  heap w !! l = Some x → aborted x = true → heap (run cs w) !! l = Some x.
Proof.
  revert w. induction cs as [|c cs IH]; intros w Hx Hab; [done |].
  apply IH; [by apply perform_frozen | done].
Qed.

Lemma create_heap K w :
  heap (snd (create K w)) = (heap w ++ [new_controller])%list.
Proof. by rewrite create_add, add_heap. Qed.

Lemma create_value K w h :
  fst (create K w) = Normal h → h = length (heap w).
Proof.
  unfold create, bind, createAbortController, ret.
  destruct (add K _ _) as [[[]|e] w']; simpl; by intros [= <-].
Qed.

(** C2. Signalling the handle that [create] returned any number [n ≥ 1] of
    times is signalling it once: every call completes, the world after [n]
    calls is the world after one, the handle is then aborted with exactly one
    'abort' event dispatched, and whatever is called afterwards it stays so. *)
Theorem signal_idempotent (w w1 : world) (K : string) (h : loc) (n : nat) :
  create K w = (Normal h, w1) → (1 ≤ n)%nat →
  fst (signals n h w1) = Normal tt ∧
  signals n h w1 = signals 1 h w1 ∧
  heap (snd (signals n h w1)) !! h =
    Some {| aborted := true; abort_events := 1; abort_impl := NativeAbort |} ∧
  (∀ cs, heap (run cs (snd (signals n h w1))) !! h =
         heap (snd (signals n h w1)) !! h).
Proof.
  intros Hcreate Hn.
  pose proof (create_heap K w) as Hheap.
  pose proof (create_value K w h) as Hh.
  rewrite Hcreate in Hheap, Hh. cbn [fst snd] in Hheap, Hh.
  specialize (Hh eq_refl). subst h.
  assert (heap w1 !! length (heap w) = Some new_controller) as Hnew.
  { rewrite Hheap. by rewrite lookup_app_r, Nat.sub_diag by lia. }
  destruct n as [|n]; [lia |].
  rewrite (signals_native n _ new_controller w1 Hnew eq_refl).
  rewrite (signals_native 0 _ new_controller w1 Hnew eq_refl).
  assert (heap (with_heap (<[length (heap w) := signal_abort new_controller]>
                             (heap w1)) w1) !! length (heap w) =
          Some {| aborted := true; abort_events := 1;
                  abort_impl := NativeAbort |}) as Hafter.
  { cbn [heap with_heap]. apply list_lookup_insert_eq.
    by eapply lookup_lt_Some. }
  repeat split; [done |].
  intros cs. cbn [snd]. rewrite Hafter. by apply run_frozen.
Qed.

Lemma signal_idempotent_witness :
  let w1 := snd (create "flow1_sess1" (startup true)) in
  fst (signals 3 0 w1) = Normal tt ∧
  signals 3 0 w1 = signals 1 0 w1 ∧
  heap (snd (signals 3 0 w1)) !! 0 =
    Some {| aborted := true; abort_events := 1; abort_impl := NativeAbort |} ∧
  (∀ cs, heap (run cs (snd (signals 3 0 w1))) !! 0 =
         heap (snd (signals 3 0 w1)) !! 0).
Proof.
  intros w1.
  apply (signal_idempotent (startup true) w1 "flow1_sess1" 0 3);
    [reflexivity | lia].
Defined.

(** C9. When the [abort] method of the stored controller throws, [abort] on
    its key still completes: the exception is caught and a warning is written.
    The [remove] after the call is not reached, so the record is what it was
    and [get] still answers with that controller. *)
Theorem cancel_keeps_entry_when_abort_throws
    (w : world) (K : string) (l : loc) (c : controller) (calls_super : bool) :
  fst (get K w) = Normal (VController l) →
  heap w !! l = Some c →
  abort_impl c = ThrowingAbort calls_super →
  fst (abort K w) = Normal tt ∧
  abortControllers (snd (abort K w)) = abortControllers w ∧
  fst (get K (snd (abort K w))) = Normal (VController l) ∧
  warnings (snd (abort K w)) = (warnings w ++ [(K, Raised)])%list.
Proof.
  intros Hget Hc Himpl.
  rewrite (abort_found K w l c Hget Hc), Himpl.
  repeat split. exact Hget.
Qed.

Lemma cancel_keeps_entry_when_abort_throws_witness :
  let w := run [New (ThrowingAbort false); Add "flow1_sess1" 0] (startup true) in
  fst (abort "flow1_sess1" w) = Normal tt ∧
  abortControllers (snd (abort "flow1_sess1" w)) = abortControllers w ∧
  fst (get "flow1_sess1" (snd (abort "flow1_sess1" w))) = Normal (VController 0) ∧
  warnings (snd (abort "flow1_sess1" w)) =
    (warnings w ++ [("flow1_sess1", Raised)])%list.
Proof.
  intros w.
  apply (cancel_keeps_entry_when_abort_throws w "flow1_sess1" 0
           {| aborted := false; abort_events := 0;
              abort_impl := ThrowingAbort false |} false);
    reflexivity.
Defined.

(* ===================================================================== *)
(** ** Creation                                                           *)
(* ===================================================================== *)


Lemma wf_startup b : wf (startup b).
Proof. split; [apply map_Forall_empty | done]. Qed.




(* ===================================================================== *)
(** ** Keys do not interfere                                              *)
(* ===================================================================== *)




Lemma abort_proto K w :
  proto (abortControllers (snd (abort K w))) = proto (abortControllers w).
Proof. by destruct (abort_pool K w) as [-> | ->]. Qed.

Lemma create_own_other K K' w :
  K ≠ K' →
  own (abortControllers (snd (create K w))) !! K' = own (abortControllers w) !! K'.
Proof. intros Hne. rewrite create_add. by rewrite add_own_other. Qed.

Lemma create_proto K w :
  K ≠ "__proto__" →
  proto (abortControllers (snd (create K w))) = proto (abortControllers w).
Proof. intros Hne. rewrite create_add. by rewrite add_proto. Qed.







(* ===================================================================== *)
(** ** The listener limits                                                *)
(* ===================================================================== *)

Lemma perform_limits c w :
  c ≠ Configure →
  defaultMaxListeners (perform c w) = defaultMaxListeners w ∧
  processMaxListeners (perform c w) = processMaxListeners w.
Proof.
  intros Hc. destruct c as [|impl|l|id l|id|id|id|id]; unfold perform;
    try done.
  - unfold signal, controller_abort.
    by destruct (call_abort (VController l) (heap w)).
  - unfold add. by destruct (set_property _ _ _).
  - rewrite create_add. unfold add. by destruct (set_property _ _ _).
  - by rewrite remove_spec.
  - apply abort_limits.
Qed.

Lemma run_limits cs w :
  Forall (λ c, c ≠ Configure) cs →
  defaultMaxListeners (run cs w) = defaultMaxListeners w ∧
  processMaxListeners (run cs w) = processMaxListeners w.
Proof.
  intros Hcs. revert w.
  induction Hcs as [|c cs Hc _ IH]; intros w; [done |].
  destruct (perform_limits c w Hc) as [Hd Hp].
  destruct (IH (perform c w)) as [Hd' Hp']. simpl.
  by rewrite Hd', Hp', Hd, Hp.
Qed.

(** X11. The listener limits are process-wide and written in one place:
    [configureAbortSignalListeners] completes, sets
    [EventEmitter.defaultMaxListeners] and the limit of [process] to 20
    whatever they were, changes neither the pool nor any controller, and
    changes nothing when run again.  [createAbortController] is
    [new AbortController()] and nothing more: it configures nothing for the
    controller it makes and leaves the limits alone; so does every other
    call into the pool or on a handle, and the limits stay 20 over any
    sequence of such calls. *)
Theorem listener_limits_are_configured_globally (w : world) :
  fst (configureAbortSignalListeners w) = Normal tt ∧
  defaultMaxListeners (snd (configureAbortSignalListeners w)) = 20 ∧
  processMaxListeners (snd (configureAbortSignalListeners w)) = 20 ∧
  heap (snd (configureAbortSignalListeners w)) = heap w ∧
  abortControllers (snd (configureAbortSignalListeners w)) = abortControllers w ∧
  snd (configureAbortSignalListeners (snd (configureAbortSignalListeners w))) =
    snd (configureAbortSignalListeners w) ∧
  createAbortController w =
    (Normal (length (heap w)), with_heap (heap w ++ [new_controller]) w) ∧
  defaultMaxListeners (snd (createAbortController w)) = defaultMaxListeners w ∧
  processMaxListeners (snd (createAbortController w)) = processMaxListeners w ∧
  (∀ cs, Forall (λ c, c ≠ Configure) cs →
         defaultMaxListeners (run cs (snd (configureAbortSignalListeners w))) = 20 ∧
         processMaxListeners (run cs (snd (configureAbortSignalListeners w))) = 20).
Proof.
  repeat split; try done;
    match goal with
    | H : Forall _ _ |- _ =>
        destruct (run_limits _ (snd (configureAbortSignalListeners w)) H)
          as [Hd Hp]
    end; by rewrite ?Hd, ?Hp.
Qed.

Lemma listener_limits_are_configured_globally_witness :
  let w := snd (configureAbortSignalListeners (startup true)) in
  defaultMaxListeners
    (run [Create "flow1_sess1"; Abort "flow1_sess1"; Remove "flow1_sess1"] w) = 20 ∧
  processMaxListeners
    (run [Create "flow1_sess1"; Abort "flow1_sess1"; Remove "flow1_sess1"] w) = 20.
Proof.
  intros w.
  destruct (listener_limits_are_configured_globally (startup true))
    as (_ & _ & _ & _ & _ & _ & _ & _ & _ & Hstay).
  apply Hstay. repeat constructor; discriminate.
Defined.

(* ===================================================================== *)
(** ** Keys that name inherited properties                                *)
(* ===================================================================== *)

(** The record is an ordinary object, so a key is looked up and assigned
    through the prototype chain; [remove] asks [hasOwnProperty] first, [get]
    and [add] do not.  The statements below run the pool on such keys. *)

(** C5. [get] does not answer [undefined] for every key without an entry: on
    the empty pool, and again after [create] and [remove], [get] for
    [constructor] and [toString] answers with the function inherited from
    %Object.prototype%. *)
Theorem get_answers_with_inherited_property (b : bool) :
  own (abortControllers (startup b)) !! "constructor" = None ∧
  fst (get "constructor" (startup b)) = Normal (VFunction "constructor") ∧
  own (abortControllers (run [Create "toString"; Remove "toString"] (startup b)))
    !! "toString" = None ∧
  fst (get "toString" (run [Create "toString"; Remove "toString"] (startup b))) =
    Normal (VFunction "toString").
Proof. by destruct b. Qed.

(** C1. [abort] does not always remove what it signalled, and is not always
    silent on a key that was never registered.  A controller created under
    [__proto__] is the record's prototype: [abort] finds it and signals it,
    the [remove] that follows deletes nothing, the record is what it was and
    [get] still answers with the controller.  On the empty pool, [abort] for
    [toString] finds the inherited function, fails to call its [abort] and
    writes a warning. *)
Theorem cancel_keeps_controller_under_proto (b : bool) :
  fst (create "__proto__" (startup b)) = Normal 0 ∧
  fst (get "__proto__" (run [Create "__proto__"] (startup b))) =
    Normal (VController 0) ∧
  aborted <$> heap (run [Create "__proto__"] (startup b)) !! 0 = Some false ∧
  aborted <$>
    heap (run [Create "__proto__"; Abort "__proto__"] (startup b)) !! 0 =
    Some true ∧
  abortControllers (run [Create "__proto__"; Abort "__proto__"] (startup b)) =
    abortControllers (run [Create "__proto__"] (startup b)) ∧
  fst (get "__proto__" (run [Create "__proto__"; Abort "__proto__"] (startup b))) =
    Normal (VController 0) ∧
  snd (abort "toString" (startup b)) =
    with_warning "toString" TypeError (startup b) ∧
  snd (abort "toString" (startup b)) ≠ startup b.
Proof. by destruct b. Qed.

(** C6. After [remove], [get] need not answer [undefined], and [abort] can
    still reach the controller issued for the key.  For [valueOf], [get]
    answers with the inherited function.  A controller created under
    [__proto__] became the record's prototype, which [remove] does not undo:
    [get] still answers with it and [abort] signals it. *)
Theorem remove_keeps_controller_under_proto (b : bool) :
  fst (get "valueOf" (run [Remove "valueOf"] (startup b))) =
    Normal (VFunction "valueOf") ∧
  fst (create "__proto__" (startup b)) = Normal 0 ∧
  fst (get "__proto__" (run [Create "__proto__"; Remove "__proto__"] (startup b))) =
    Normal (VController 0) ∧
  aborted <$>
    heap (run [Create "__proto__"; Remove "__proto__"] (startup b)) !! 0 =
    Some false ∧
  aborted <$>
    heap (run [Create "__proto__"; Remove "__proto__"; Abort "__proto__"]
            (startup b)) !! 0 =
    Some true.
Proof. by destruct b. Qed.

(** C4. [create] can fail: once a controller has become the record's
    prototype, the key [signal] names an inherited accessor without setter,
    the assignment in [add] is a TypeError, and [create] throws it.  The
    controller it made is registered nowhere. *)
Theorem create_throws_on_inherited_accessor (b : bool) :
  fst (create "signal" (run [Create "__proto__"] (startup b))) = Throw TypeError ∧
  own (abortControllers (run [Create "__proto__"; Create "signal"] (startup b)))
    !! "signal" = None ∧
  fst (get "signal" (run [Create "__proto__"; Create "signal"] (startup b))) ≠
    Normal (VController 1).
Proof. by destruct b. Qed.

(** C3. Not every operation of the pool completes: with a controller
    registered under [__proto__], [add] for the key [signal] throws a
    TypeError, and where the getter of [signal] checks its receiver so does
    [get]. *)
Theorem add_and_get_can_throw (b : bool) :
  fst (add "signal" 1 (run [Create "__proto__"; New NativeAbort] (startup b))) =
    Throw TypeError ∧
  fst (get "signal" (run [Create "__proto__"] (startup true))) = Throw TypeError.
Proof. by destruct b. Qed.

(* ===================================================================== *)
(** ** Keys that name nothing inherited                                   *)
(* ===================================================================== *)

(** As long as nothing was registered under [__proto__] the record's
    prototype is %Object.prototype%, and for keys that this prototype does
    not define the record is the map it is used as. *)

Lemma pristine_startup b : pristine (startup b).
Proof. done. Qed.

Lemma pristine_perform c w :
  ¬ registers "__proto__" c → pristine w → pristine (perform c w).
Proof.
  unfold pristine. intros Hc Hw.
  destruct c as [|impl|l|id l|id|id|id|id]; simpl in Hc; unfold perform;
    try done.
  - unfold signal, controller_abort.
    by destruct (call_abort (VController l) (heap w)).
  - by rewrite add_proto.
  - by rewrite create_proto.
  - by rewrite remove_spec.
  - by rewrite abort_proto.
Qed.

Lemma get_returns_pristine K w :
  pristine w → ∃ v, fst (get K w) = Normal v.
Proof.
  unfold pristine, get, get_property. intros ->. simpl.
  destruct (own (abortControllers w) !! K); [by eexists |].
  case_decide; by eexists.
Qed.

Lemma add_returns K l w :
  pristine w ∨ K ≠ "signal" → fst (add K l w) = Normal tt.
Proof.
  unfold pristine, add, set_property. intros Hok.
  destruct (own (abortControllers w) !! K); [done |].
  repeat case_decide; try done.
  destruct Hok as [-> | ?]; done.
Qed.

Lemma create_returns K w :
  pristine w ∨ K ≠ "signal" → fst (create K w) = Normal (length (heap w)).
Proof.
  intros Hok. unfold create, bind, createAbortController, ret.
  pose proof (add_returns K (length (heap w))
                (with_heap (heap w ++ [new_controller]) w) Hok) as Hadd.
  by destruct (add K _ _) as [[[]|e] w'].
Qed.

Lemma get_absent_plain K w :
  pristine w → plain K → own (abortControllers w) !! K = None →
  fst (get K w) = Normal VUndefined.
Proof.
  unfold pristine, plain, get, get_property, object_prototype_get.
  intros -> [Hne Hnin] ->. simpl. by repeat case_decide.
Qed.

Lemma remove_then_get_plain K w :
  pristine w → plain K → fst (get K (snd (remove K w))) = Normal VUndefined.
Proof.
  intros Hw HK. apply get_absent_plain; [| done |].
  - unfold pristine. by rewrite remove_spec.
  - rewrite remove_spec. cbn [snd abortControllers with_pool].
    rewrite delete_property_own. by case_decide.
Qed.

(** After [remove], [abort] for a key other than [__proto__] finds no
    controller and signals none. *)
Lemma remove_then_abort K w :
  K ≠ "__proto__" →
  fst (abort K (snd (remove K w))) = Normal tt ∧
  heap (snd (abort K (snd (remove K w)))) = heap w.
Proof.
  intros Hne. split; [apply abort_returns |].
  assert (∀ l, fst (get K (snd (remove K w))) ≠ Normal (VController l)) as Hno.
  { intros l Hget. apply get_controller in Hget. revert Hget.
    rewrite remove_spec. cbn [snd abortControllers with_pool].
    rewrite delete_property_own. case_decide; [| done].
    intros [? | (_ & ? & _)]; done. }
  destruct (abort_without_controller _ _ Hno) as [-> | ->];
    by rewrite remove_spec.
Qed.

(* ===================================================================== *)
(** ** Reachable worlds hold no dangling reference                        *)
(* ===================================================================== *)

Lemma invoke_abort_length l h : length (snd (invoke_abort l h)) = length h.
Proof.
  unfold invoke_abort. destruct (h !! l) as [c|]; [| done].
  destruct (abort_impl c) as [|[]]; simpl; by rewrite ?length_insert.
Qed.

Lemma wf_grow w w' :
  abortControllers w' = abortControllers w →
  (length (heap w) ≤ length (heap w'))%nat →
  wf w → wf w'.
Proof.
  unfold wf. intros -> Hlen [Hown Hproto]. split.
  - intros K l HK. specialize (Hown K l HK). simpl in *. lia.
  - destruct (proto (abortControllers w)); simpl in *; [lia | done].
Qed.

Lemma wf_add id l w : (l < length (heap w))%nat → wf w → wf (snd (add id l w)).
Proof.
  intros Hl [Hown Hproto]. unfold wf. rewrite add_heap.
  unfold add, set_property.
  destruct (own (abortControllers w) !! id);
    [| repeat case_decide; try destruct (proto (abortControllers w)) eqn:Hp];
    cbn [snd abortControllers with_pool own proto]; rewrite ?Hp;
    (split; [try done; by apply map_Forall_insert_2 | done]).
Qed.

Lemma wf_delete K w :
  wf w → wf (with_pool (delete_property (abortControllers w) K) w).
Proof.
  intros [Hown Hproto]. split; [| done].
  cbn [abortControllers with_pool delete_property own heap].
  by apply map_Forall_delete.
Qed.

Lemma wf_perform c w : well_typed c w → wf w → wf (perform c w).
Proof.
  intros Hc Hw.
  destruct c as [|impl|l|id l|id|id|id|id]; unfold perform; simpl in Hc.
  - done.
  - apply (wf_grow w); [done | | done].
    cbn [heap with_heap]. rewrite length_app. lia.
  - apply (wf_grow w); [| | done]; unfold signal, controller_abort, call_abort;
      destruct (invoke_abort l (heap w)) as [r h] eqn:E; [done |].
    cbn [snd heap with_heap]. change h with (snd (r, h)).
    rewrite <- E, invoke_abort_length. lia.
  - by apply wf_add.
  - rewrite create_add. apply wf_add.
    + cbn [heap with_heap]. rewrite length_app. simpl. lia.
    + apply (wf_grow w); [done | | done].
      cbn [heap with_heap]. rewrite length_app. lia.
  - rewrite remove_spec. by apply wf_delete.
  - done.
  - destruct (abort_pool id w) as [Hp | Hp];
      destruct (abort_heap id w) as [Hh | (l & _ & Hh)]; split;
      rewrite Hp, Hh, ?invoke_abort_length;
      try apply Hw; try apply (wf_delete id w Hw).
Qed.

(* ===================================================================== *)
(** ** Registering and removing                                          *)
(* ===================================================================== *)

Lemma run_app cs1 cs2 w : run (cs1 ++ cs2) w = run cs2 (run cs1 w).
Proof. apply foldl_app. Qed.

Lemma add_throws K l w e :
  fst (add K l w) = Throw e →
  e = TypeError ∧ K = "signal" ∧ ¬ pristine w ∧ snd (add K l w) = w.
Proof.
  unfold add, set_property, pristine.
  destruct (own (abortControllers w) !! K); [done |].
  repeat case_decide; try done.
  destruct (proto (abortControllers w)) eqn:Hp; [| done].
  simpl. by intros [= <-].
Qed.

(** X1. [add] and [get] round-trip: when [add] returns, [get] for the key
    answers with exactly the controller that was added, whatever the key and
    whatever was there before, and no controller was touched.  [add] fails
    in one case only, the key [signal] on a record whose prototype was
    replaced; it then throws a TypeError and leaves the world as it was. *)
Theorem add_then_get (w : world) (K : string) (l : loc) :
  (fst (add K l w) = Normal tt →
   fst (get K (snd (add K l w))) = Normal (VController l) ∧
   heap (snd (add K l w)) = heap w) ∧
  (∀ e, fst (add K l w) = Throw e →
        e = TypeError ∧ K = "signal" ∧ ¬ pristine w ∧ snd (add K l w) = w).
Proof.
  split; [| apply add_throws].
  intros Hret. split; [| apply add_heap].
  apply get_controller. revert Hret. unfold add, set_property.
  destruct (own (abortControllers w) !! K) eqn:Hown.
  - intros _. left. cbn [snd abortControllers with_pool own].
    apply lookup_insert_eq.
  - repeat case_decide; try destruct (proto (abortControllers w)) eqn:Hp;
      try done; intros _; cbn [snd abortControllers with_pool own proto];
      try (left; apply lookup_insert_eq).
    all: by right.
Qed.

Lemma add_then_get_witness :
  let w := run [New NativeAbort; New NativeAbort; Add "flow1_sess1" 0]
             (startup true) in
  fst (get "flow1_sess1" (snd (add "flow1_sess1" 1 w))) = Normal (VController 1) ∧
  heap (snd (add "flow1_sess1" 1 w)) = heap w.
Proof.
  intros w.
  destruct (add_then_get w "flow1_sess1" 1) as [Hret _].
  apply Hret. reflexivity.
Defined.

(** X2. Adding twice under one key is adding the last: the second [add]
    overwrites what the first stored, completes or throws as it would have
    alone, and leaves the world it would have left alone. *)
Theorem add_last_wins (w : world) (K : string) (l1 l2 : loc) :
  add K l2 (snd (add K l1 w)) = add K l2 w.
Proof.
  unfold add, set_property.
  destruct (own (abortControllers w) !! K) eqn:Hown.
  - cbn [snd abortControllers with_pool own proto].
    rewrite lookup_insert_eq. by rewrite insert_insert_eq.
  - repeat case_decide; try destruct (proto (abortControllers w)) eqn:Hp;
      cbn [snd abortControllers with_pool own proto];
      rewrite ?Hown, ?Hp, ?lookup_insert_eq; repeat case_decide; try done;
      by rewrite insert_insert_eq.
Qed.

(** X3. [remove] is idempotent and never more than a deletion: a second
    [remove] of the same key changes nothing, [remove] of a key without an
    own entry changes nothing at all, and in every case the controllers,
    the one that was registered included, are left exactly as they were:
    removing an entry does not signal it. *)
Theorem remove_idempotent (w : world) (K : string) :
  remove K (snd (remove K w)) = (Normal tt, snd (remove K w)) ∧
  (own (abortControllers w) !! K = None → remove K w = (Normal tt, w)) ∧
  own (abortControllers (snd (remove K w))) !! K = None ∧
  heap (snd (remove K w)) = heap w ∧
  warnings (snd (remove K w)) = warnings w.
Proof.
  assert (∀ w', own (abortControllers w') !! K = None →
                remove K w' = (Normal tt, w')) as Habsent.
  { intros w' Hown. rewrite remove_spec.
    by rewrite delete_property_absent, with_pool_same. }
  assert (own (abortControllers (snd (remove K w))) !! K = None) as Hgone.
  { rewrite remove_spec. cbn [snd abortControllers with_pool].
    rewrite delete_property_own. by case_decide. }
  split; [by apply Habsent |]. split; [apply Habsent |].
  split; [done |]. by rewrite remove_spec.
Qed.

Lemma remove_idempotent_witness :
  let w := run [Create "flow1_sess1"] (startup true) in
  remove "flow2_sess2" w = (Normal tt, w).
Proof.
  intros w.
  destruct (remove_idempotent w "flow2_sess2") as (_ & Habsent & _).
  apply Habsent. reflexivity.
Defined.

(* ===================================================================== *)
(** ** Cancelling, again and in any order                                 *)
(* ===================================================================== *)

Lemma abort_undefined K w :
  fst (get K w) = Normal VUndefined → abort K w = (Normal tt, w).
Proof.
  intros Hget. unfold abort, safeAbort, try_catch, bind, ret.
  unfold get in *; simpl in Hget. by rewrite Hget.
Qed.

(** X4. Cancelling twice is cancelling once.  On a record whose prototype is
    untouched, for a key that names nothing inherited and holds a controller
    with the platform's [abort]: after [abort], the controller is aborted with
    one more event than before at most, [get] answers [undefined], a second
    [abort] and a later [remove] change nothing, and no warning was written. *)
Theorem cancel_twice (w : world) (K : string) (l : loc) (c : controller) :
  pristine w → plain K →
  own (abortControllers w) !! K = Some l →
  heap w !! l = Some c → abort_impl c = NativeAbort →
  heap (snd (abort K w)) !! l = Some (signal_abort c) ∧
  fst (get K (snd (abort K w))) = Normal VUndefined ∧
  abort K (snd (abort K w)) = (Normal tt, snd (abort K w)) ∧
  remove K (snd (abort K w)) = (Normal tt, snd (abort K w)) ∧
  warnings (snd (abort K w)) = warnings w.
Proof.
  intros Hw HK Hown Hc Himpl.
  assert (fst (get K w) = Normal (VController l)) as Hget
    by (apply get_controller; by left).
  rewrite (abort_found K w l c Hget Hc), Himpl, remove_spec.
  set (w1 := with_pool _ _).
  assert (own (abortControllers w1) !! K = None) as Hgone.
  { unfold w1. cbn [abortControllers with_pool with_heap].
    rewrite delete_property_own. by case_decide. }
  assert (fst (get K w1) = Normal VUndefined) as Hundef.
  { apply get_absent_plain; [| done | done]. unfold pristine, w1.
    by cbn [abortControllers with_pool with_heap delete_property proto]. }
  cbn [snd]. split; [| split; [done | split; [| split]]].
  - unfold w1. cbn [heap with_pool with_heap].
    apply list_lookup_insert_eq. by eapply lookup_lt_Some.
  - by apply abort_undefined.
  - rewrite remove_spec. by rewrite delete_property_absent, with_pool_same.
  - done.
Qed.

Lemma cancel_twice_witness :
  let w := run [Create "flow1_sess1"] (startup true) in
  heap (snd (abort "flow1_sess1" w)) !! 0 = Some (signal_abort new_controller) ∧
  fst (get "flow1_sess1" (snd (abort "flow1_sess1" w))) = Normal VUndefined ∧
  abort "flow1_sess1" (snd (abort "flow1_sess1" w)) =
    (Normal tt, snd (abort "flow1_sess1" w)) ∧
  remove "flow1_sess1" (snd (abort "flow1_sess1" w)) =
    (Normal tt, snd (abort "flow1_sess1" w)) ∧
  warnings (snd (abort "flow1_sess1" w)) = warnings w.
Proof.
  intros w.
  apply (cancel_twice w "flow1_sess1" 0 new_controller);
    try reflexivity.
  split; [discriminate |]. apply (bool_decide_unpack _). vm_compute. exact I.
Defined.

(** X5. An outside [abort] and the execution's own [remove] may come in
    either order: both complete, and the record afterwards is the same, the
    one of before without the own entry of the key. *)
Theorem cancel_and_remove_in_any_order (w : world) (K : string) :
  fst (abort K (snd (remove K w))) = Normal tt ∧
  fst (remove K (snd (abort K w))) = Normal tt ∧
  abortControllers (snd (abort K (snd (remove K w)))) =
    delete_property (abortControllers w) K ∧
  abortControllers (snd (remove K (snd (abort K w)))) =
    delete_property (abortControllers w) K.
Proof.
  assert (∀ o, delete_property (delete_property o K) K = delete_property o K)
    as Hdd.
  { intros [m p]. unfold delete_property; simpl. by rewrite delete_delete_eq. }
  split; [apply abort_returns |]. split; [by rewrite remove_spec |]. split.
  - destruct (abort_pool K (snd (remove K w))) as [-> | ->];
      rewrite remove_spec; cbn [snd abortControllers with_pool]; by rewrite ?Hdd.
  - rewrite remove_spec. cbn [snd abortControllers with_pool].
    destruct (abort_pool K w) as [-> | ->]; by rewrite ?Hdd.
Qed.

(** X6. What [abort] writes to the console: at most one line, for its own
    key; and none exactly when the lookup yields [undefined] or a controller
    whose [abort] returns.  Every other outcome of the lookup (an inherited
    property, a getter that throws, a controller whose [abort] throws) is one
    warning. *)
Theorem abort_warns_exactly_on_failure (w : world) (K : string) :
  (warnings (snd (abort K w)) = warnings w ∨
   ∃ e, warnings (snd (abort K w)) = (warnings w ++ [(K, e)])%list) ∧
  (warnings (snd (abort K w)) = warnings w ↔
   fst (get K w) = Normal VUndefined ∨
   ∃ l c, fst (get K w) = Normal (VController l) ∧ heap w !! l = Some c ∧
          abort_impl c = NativeAbort).
Proof.
  assert (∀ (ws : list (string * error)) x, (ws ++ [x])%list ≠ ws) as Hgrow.
  { intros ws x Heq. apply (f_equal length) in Heq.
    rewrite length_app in Heq. simpl in Heq. lia. }
  destruct (fst (get K w)) as [[|l| | |]|e] eqn:Hget.
  - (* undefined *)
    rewrite (abort_undefined K w Hget).
    split; [by left | split; [by left | done]].
  - (* a controller *)
    destruct (heap w !! l) as [c|] eqn:Hc.
    + rewrite (abort_found K w l c Hget Hc).
      destruct (abort_impl c) as [|s] eqn:Himpl.
      * rewrite remove_spec.
        split; [by left | split; [| done]].
        intros _. right. by exists l, c.
      * split; [right; by eexists | split].
        -- intros Heq. by apply Hgrow in Heq.
        -- intros [? | (l' & c' & [= <-] & Hc' & Himpl')]; [done |].
           congruence.
    + rewrite (abort_dangling K w l Hget Hc).
      split; [right; by eexists | split].
      * intros Heq. by apply Hgrow in Heq.
      * intros [? | (l' & c' & [= <-] & Hc' & _)]; [done | congruence].
  - (* Object.prototype *)
    assert (snd (abort K w) = with_warning K TypeError w) as ->.
    { unfold abort, safeAbort, try_catch, bind, ret, console_warn.
      unfold get in *; simpl in Hget. rewrite Hget. simpl.
      unfold controller_abort; simpl. by rewrite with_heap_same. }
    split; [right; by eexists | split].
    + intros Heq. by apply Hgrow in Heq.
    + intros [? | (l' & c' & ? & _)]; done.
  - (* an inherited function *)
    assert (snd (abort K w) = with_warning K TypeError w) as ->.
    { unfold abort, safeAbort, try_catch, bind, ret, console_warn.
      unfold get in *; simpl in Hget. rewrite Hget. simpl.
      unfold controller_abort; simpl. by rewrite with_heap_same. }
    split; [right; by eexists | split].
    + intros Heq. by apply Hgrow in Heq.
    + intros [? | (l' & c' & ? & _)]; done.
  - (* a signal read through the chain *)
    assert (snd (abort K w) = with_warning K TypeError w) as ->.
    { unfold abort, safeAbort, try_catch, bind, ret, console_warn.
      unfold get in *; simpl in Hget. rewrite Hget. simpl.
      unfold controller_abort; simpl. by rewrite with_heap_same. }
    split; [right; by eexists | split].
    + intros Heq. by apply Hgrow in Heq.
    + intros [? | (l' & c' & ? & _)]; done.
  - (* the lookup throws *)
    assert (snd (abort K w) = with_warning K e w) as ->.
    { unfold abort, safeAbort, try_catch, bind, ret, console_warn.
      unfold get in *; simpl in Hget. by rewrite Hget. }
    split; [right; by eexists | split].
    + intros Heq. by apply Hgrow in Heq.
    + intros [? | (l' & c' & ? & _)]; done.
Qed.

(* ===================================================================== *)
(** ** Many executions                                                    *)
(* ===================================================================== *)

Lemma jsobject_eq o1 o2 : own o1 = own o2 → proto o1 = proto o2 → o1 = o2.
Proof. destruct o1, o2; simpl; by intros -> ->. Qed.

Lemma run_cons c cs w : run (c :: cs) w = run cs (perform c w).
Proof. done. Qed.

Lemma run_creates_own ks K w :
  K ∉ ks →
  own (abortControllers (run (Create <$> ks) w)) !! K =
  own (abortControllers w) !! K.
Proof.
  revert w. induction ks as [|k ks IH]; intros w Hnin; [done |].
  apply not_elem_of_cons in Hnin as [Hne Hnin].
  rewrite fmap_cons, run_cons, IH by done. by apply create_own_other.
Qed.

Lemma run_removes_own ks K w :
  own (abortControllers (run (Remove <$> ks) w)) !! K =
  if decide (K ∈ ks) then None else own (abortControllers w) !! K.
Proof.
  revert w. induction ks as [|k ks IH]; intros w.
  - change (run (Remove <$> []) w) with w.
    destruct (decide (K ∈ [])) as [Hin|]; [by apply elem_of_nil in Hin | done].
  - rewrite fmap_cons, run_cons, IH. cbn [perform].
    rewrite remove_spec. cbn [snd abortControllers with_pool].
    rewrite delete_property_own.
    destruct (decide (K ∈ ks)) as [Hin|Hnin];
      destruct (decide (K ∈ k :: ks)) as [Hin'|Hnin'];
      destruct (decide (k = K)) as [->|Hne]; try done.
    all: try (destruct Hnin'; by apply list_elem_of_further).
    all: try (destruct Hnin'; by apply list_elem_of_here).
    all: apply elem_of_cons in Hin' as [-> | ?]; done.
Qed.

Lemma run_creates_heap ks w :
  ∃ news, heap (run (Create <$> ks) w) = (heap w ++ news)%list ∧
          length news = length ks.
Proof.
  revert w. induction ks as [|k ks IH]; intros w.
  - exists []. by rewrite app_nil_r.
  - rewrite fmap_cons, run_cons. cbn [perform].
    destruct (IH (snd (create k w))) as (news & -> & Hlen).
    exists (new_controller :: news).
    rewrite create_heap, <- app_assoc. simpl. by rewrite Hlen.
Qed.

Lemma run_removes_heap ks w : heap (run (Remove <$> ks) w) = heap w.
Proof.
  revert w. induction ks as [|k ks IH]; intros w; [done |].
  rewrite fmap_cons, run_cons, IH. cbn [perform]. by rewrite remove_spec.
Qed.

Lemma run_creates_proto ks w :
  "__proto__" ∉ ks →
  proto (abortControllers (run (Create <$> ks) w)) = proto (abortControllers w).
Proof.
  revert w. induction ks as [|k ks IH]; intros w Hnin; [done |].
  apply not_elem_of_cons in Hnin as [Hne Hnin].
  rewrite fmap_cons, run_cons, IH by done. cbn [perform].
  apply create_proto. congruence.
Qed.

Lemma run_removes_proto ks w :
  proto (abortControllers (run (Remove <$> ks) w)) = proto (abortControllers w).
Proof.
  revert w. induction ks as [|k ks IH]; intros w; [done |].
  rewrite fmap_cons, run_cons, IH. cbn [perform]. by rewrite remove_spec.
Qed.

(** X7. Starting any number of executions and removing each again leaks no
    entry.  After [create] for every key of a list and then [remove] for
    every key of it, none of these keys has an own entry and every other key
    has the entry it had; one controller was made per [create]; and every
    controller that existed is exactly as it was, so nothing was signalled.
    On a pool that was empty, the record is empty again. *)
Theorem create_all_then_remove_all (w : world) (ks : list string) :
  (∀ K, own (abortControllers (run ((Create <$> ks) ++ (Remove <$> ks)) w)) !! K =
        if decide (K ∈ ks) then None else own (abortControllers w) !! K) ∧
  length (heap (run ((Create <$> ks) ++ (Remove <$> ks)) w)) =
    (length (heap w) + length ks)%nat ∧
  (∀ l c, heap w !! l = Some c →
          heap (run ((Create <$> ks) ++ (Remove <$> ks)) w) !! l = Some c) ∧
  (abortControllers w = empty_object → "__proto__" ∉ ks →
   abortControllers (run ((Create <$> ks) ++ (Remove <$> ks)) w) = empty_object).
Proof.
  assert (∀ K, own (abortControllers (run ((Create <$> ks) ++ (Remove <$> ks)) w)) !! K =
               if decide (K ∈ ks) then None else own (abortControllers w) !! K)
    as Hown.
  { intros K. rewrite run_app, run_removes_own.
    case_decide; [done | by apply run_creates_own]. }
  destruct (run_creates_heap ks w) as (news & Hheap & Hlen).
  split; [done |]. split; [| split].
  - by rewrite run_app, run_removes_heap, Hheap, length_app, Hlen.
  - intros l c Hc. rewrite run_app, run_removes_heap, Hheap.
    by apply lookup_app_l_Some.
  - intros Hempty Hnin. apply jsobject_eq.
    + apply map_eq. intros K. rewrite Hown, Hempty. simpl.
      rewrite lookup_empty. by case_decide.
    + rewrite run_app, run_removes_proto, run_creates_proto by done.
      by rewrite Hempty.
Qed.

Lemma create_all_then_remove_all_witness :
  abortControllers
    (run ((Create <$> ["flow1_sess1"; "flow1_sess2"; "flow2_sess1"]) ++
          (Remove <$> ["flow1_sess1"; "flow1_sess2"; "flow2_sess1"]))
       (startup true)) = empty_object.
Proof.
  destruct (create_all_then_remove_all (startup true)
              ["flow1_sess1"; "flow1_sess2"; "flow2_sess1"])
    as (_ & _ & _ & Hempty).
  apply Hempty; [reflexivity |].
  apply (bool_decide_unpack _). vm_compute. exact I.
Defined.

(* ===================================================================== *)
(** ** While nothing is registered under [__proto__]                      *)
(* ===================================================================== *)

Lemma pristine_run cs w :
  Forall (λ c, ¬ registers "__proto__" c) cs → pristine w → pristine (run cs w).
Proof.
  intros Hcs. revert w.
  induction Hcs as [|c cs Hc _ IH]; intros w Hw; [done |].
  apply IH. by apply pristine_perform.
Qed.

(** X8. In a process that never registers the key [__proto__], every
    operation of the pool completes, for every key: [get] answers with a
    value, [add] and [create] return ([create] with the controller it made),
    and so do [remove] and [abort]. *)
Theorem operations_complete_while_proto_unregistered
    (b : bool) (cs : list call) (K : string) (l : loc) :
  Forall (λ c, ¬ registers "__proto__" c) cs →
  (∃ v, fst (get K (run cs (startup b))) = Normal v) ∧
  fst (add K l (run cs (startup b))) = Normal tt ∧
  fst (create K (run cs (startup b))) =
    Normal (length (heap (run cs (startup b)))) ∧
  fst (remove K (run cs (startup b))) = Normal tt ∧
  fst (abort K (run cs (startup b))) = Normal tt.
Proof.
  intros Hcs.
  assert (pristine (run cs (startup b))) as Hw
    by (apply pristine_run; [done | apply pristine_startup]).
  split; [by apply get_returns_pristine |].
  split; [apply add_returns; by left |].
  split; [apply create_returns; by left |].
  split; [by rewrite remove_spec | apply abort_returns].
Qed.

Lemma operations_complete_while_proto_unregistered_witness :
  let w := run [Create "toString"; Create "signal"] (startup true) in
  (∃ v, fst (get "constructor" w) = Normal v) ∧
  fst (add "constructor" 0 w) = Normal tt ∧
  fst (create "constructor" w) = Normal (length (heap w)) ∧
  fst (remove "constructor" w) = Normal tt ∧
  fst (abort "constructor" w) = Normal tt.
Proof.
  intros w.
  apply (operations_complete_while_proto_unregistered true
           [Create "toString"; Create "signal"] "constructor" 0).
  repeat constructor; simpl; discriminate.
Defined.

(** X9. In such a process, for a key that names nothing inherited, [get] is
    the lookup of a map: it answers with the controller stored under the key
    if there is one and with [undefined] if there is none; in particular with
    [undefined] for a key that was never registered. *)
Theorem get_is_lookup_on_plain_keys (b : bool) (cs : list call) (K : string) :
  Forall (λ c, ¬ registers "__proto__" c) cs → plain K →
  fst (get K (run cs (startup b))) =
    Normal (match own (abortControllers (run cs (startup b))) !! K with
            | Some l => VController l
            | None => VUndefined
            end) ∧
  (Forall (λ c, ¬ registers K c) cs →
   fst (get K (run cs (startup b))) = Normal VUndefined).
Proof.
  intros Hcs HK.
  assert (pristine (run cs (startup b))) as Hw
    by (apply pristine_run; [done | apply pristine_startup]).
  split.
  - destruct (own (abortControllers (run cs (startup b))) !! K) as [l|] eqn:Hown.
    + apply get_controller. by left.
    + by apply get_absent_plain.
  - intros Hnever. apply get_absent_plain; [done | done |].
    by apply (unregistered_run K cs (startup b) Hnever),
             unregistered_startup.
Qed.

Lemma get_is_lookup_on_plain_keys_witness :
  let cs := [Create "flow1_sess1"; Create "flow2_sess2"; Abort "flow2_sess2"] in
  fst (get "flow1_sess1" (run cs (startup true))) = Normal (VController 0) ∧
  fst (get "flow3_sess3" (run cs (startup true))) = Normal VUndefined.
Proof.
  intros cs.
  split.
  - destruct (get_is_lookup_on_plain_keys true cs "flow1_sess1") as [Hget _].
    + repeat constructor; simpl; try discriminate; tauto.
    + split; [discriminate | apply (bool_decide_unpack _); vm_compute; exact I].
    + exact Hget.
  - destruct (get_is_lookup_on_plain_keys true cs "flow3_sess3") as [_ Hnever].
    + repeat constructor; simpl; try discriminate; tauto.
    + split; [discriminate | apply (bool_decide_unpack _); vm_compute; exact I].
    + apply Hnever. repeat constructor; simpl; try discriminate; tauto.
Defined.

(* ===================================================================== *)
(** ** The life of a controller                                           *)
(* ===================================================================== *)

Lemma invoke_abort_lookup l' h l x :
  h !! l = Some x →
  snd (invoke_abort l' h) !! l = Some x ∨
  snd (invoke_abort l' h) !! l = Some (signal_abort x).
Proof.
  intros Hx. unfold invoke_abort.
  destruct (h !! l') as [c|] eqn:Hc; [| by left].
  assert (<[l' := signal_abort c]> h !! l = Some x ∨
          <[l' := signal_abort c]> h !! l = Some (signal_abort x)) as Hins.
  { destruct (decide (l' = l)) as [->|Hne].
    - right. rewrite list_lookup_insert_eq by (by eapply lookup_lt_Some).
      congruence.
    - left. by rewrite list_lookup_insert_ne. }
  destruct (abort_impl c) as [|[]]; simpl; auto.
Qed.

Lemma perform_lookup c w l x :
  heap w !! l = Some x →
  heap (perform c w) !! l = Some x ∨
  heap (perform c w) !! l = Some (signal_abort x).
Proof.
  intros Hx.
  destruct c as [|impl|l'|id l'|id|id|id|id]; unfold perform;
    try (by left).
  - left. cbn [heap with_heap]. by apply lookup_app_l_Some.
  - unfold signal, controller_abort, call_abort.
    destruct (invoke_abort l' (heap w)) as [r h] eqn:E. cbn [snd heap with_heap].
    change h with (snd (r, h)). rewrite <- E. by apply invoke_abort_lookup.
  - left. by rewrite add_heap.
  - left. rewrite create_add, add_heap. cbn [heap with_heap].
    by apply lookup_app_l_Some.
  - left. by rewrite remove_spec.
  - destruct (abort_heap id w) as [-> | (l' & _ & ->)]; [by left |].
    by apply invoke_abort_lookup.
Qed.

(** X10. Over any sequence of calls, into the pool or on handles, a
    controller that exists is either exactly as it was or as one [abort] of
    the platform leaves it: it is never removed from memory, never reset, and
    however often and by whatever path it is signalled, at most one 'abort'
    event is dispatched on it. *)
Theorem controller_changes_only_by_one_signal
    (cs : list call) (w : world) (l : loc) (x : controller) :
  heap w !! l = Some x →
  (heap (run cs w) !! l = Some x ∨
   heap (run cs w) !! l = Some (signal_abort x)) ∧
  (∀ y, heap (run cs w) !! l = Some y →
        abort_impl y = abort_impl x ∧
        (aborted x = true → y = x) ∧
        (abort_events y ≤ S (abort_events x))%nat).
Proof.
  intros Hx.
  assert (heap (run cs w) !! l = Some x ∨
          heap (run cs w) !! l = Some (signal_abort x)) as Hrun.
  { revert w x Hx. induction cs as [|c cs IH]; intros w x Hx; [by left |].
    simpl. destruct (perform_lookup c w l x Hx) as [H | H].
    - by apply IH.
    - destruct (IH _ _ H) as [H' | H']; [by right |].
      right. by rewrite signal_abort_idem in H'. }
  split; [done |].
  intros y Hy. destruct Hrun as [H | H]; rewrite H in Hy; injection Hy as <-.
  - split; [done |]. split; [done | lia].
  - split; [apply signal_abort_impl |]. split.
    + apply signal_abort_fixed.
    + unfold signal_abort. destruct (aborted x); simpl; lia.
Qed.

Lemma controller_changes_only_by_one_signal_witness :
  let w := run [Create "flow1_sess1"; New NativeAbort; Add "flow2_sess2" 0]
             (startup true) in
  let cs := [Abort "flow1_sess1"; Abort "flow2_sess2"; Signal 0;
             Remove "flow2_sess2"; Create "flow1_sess1"] in
  heap (run cs w) !! 0 = Some new_controller ∨
  heap (run cs w) !! 0 = Some (signal_abort new_controller).
Proof.
  intros w cs.
  destruct (controller_changes_only_by_one_signal cs w 0 new_controller)
    as [Hrun _]; [reflexivity | exact Hrun].
Defined.
